(** * Chord transposition (src/index.ts): a shallow embedding

    The four functions of [src/index.ts] ([getNoteIndex], [chooseEnharmonic],
    [transposeChord], [transposeChords]) are embedded as Rocq functions, and
    the example run at the end of the file as [Script.main].

    - TypeScript [string]s are [String.string]s (one [ascii] per code unit).
    - TypeScript [number]s are IEEE-754 doubles.  The program uses them as
      table indices and as semitone intervals; the embedding covers the
      integer-valued ones and writes them as integers [Z].  [+] is the exact
      sum rounded to the nearest double ([JS.add]); [%] is the truncating
      remainder [Z.rem], whose sign is that of the dividend and which is
      exact on doubles; comparisons with 0 are exact.
    - A [throw], and the [TypeError] that reading a property of [undefined]
      raises, are the [Throw] results of an error monad. *)

From Stdlib Require Import String Ascii List ZArith Lia Bool.
Import ListNotations.

Local Open Scope string_scope.
Local Open Scope list_scope.
Local Open Scope Z_scope.

(** ** Errors and results *)

(** The two [throw new Error(...)] sites of the source, named as the
    specification names them, and the runtime's [TypeError]. *)
Inductive error : Type :=
| UnknownNoteError (note : string)          (* `Note ${note} not found in chromatic scale.` *)
| InvalidChordFormatError (chord : string)  (* `Invalid chord format: ${chord}` *)
| TypeError.                                (* a property read on [undefined] *)

Inductive result (A : Type) : Type :=
| Ok (a : A)
| Throw (e : error).

Arguments Ok {A} a.
Arguments Throw {A} e.

Definition bind {A B : Type} (r : result A) (k : A -> result B) : result B :=
  match r with
  | Ok a => k a
  | Throw e => Throw e
  end.

Notation "x <- r ;; k" := (bind r (fun x => k))
  (at level 61, r at next level, right associativity).

(** ** The JavaScript library functions the source calls *)

Module JS.

(** [s.startsWith(sub)] *)
Fixpoint startsWith (s sub : string) : bool :=
  match sub, s with
  | EmptyString, _ => true
  | String _ _, EmptyString => false
  | String b sub', String a s' => Ascii.eqb a b && startsWith s' sub'
  end.

(** [s.includes(sub)]: [sub] occurs in [s] as a substring. *)
Fixpoint includes (s sub : string) : bool :=
  startsWith s sub ||
  match s with
  | EmptyString => false
  | String _ s' => includes s' sub
  end.

(** [s.split(sep)] for a one-character separator: never the empty array. *)
Fixpoint split (sep : ascii) (s : string) : list string :=
  match s with
  | EmptyString => [EmptyString]
  | String c s' =>
      if Ascii.eqb c sep then EmptyString :: split sep s'
      else match split sep s' with
           | piece :: pieces => String c piece :: pieces
           | [] => [String c EmptyString]
           end
  end.

(** [arr.join(sep)] *)
Definition join (sep : string) (arr : list string) : string :=
  String.concat sep arr.

(** [s.slice(start)] for [0 <= start]. *)
Fixpoint slice (s : string) (start : nat) {struct start} : string :=
  match start, s with
  | O, _ => s
  | S _, EmptyString => EmptyString
  | S start', String _ s' => slice s' start'
  end.

(** The integer-valued double nearest to the integer [x], ties to the even
    significand: integers below [2 ^ 53] in magnitude are doubles; above,
    the 53 leading bits are kept and the rest is rounded.  (No sum of the
    program overflows: it adds a table index or a table length to a finite
    double.) *)
Definition roundToDouble (x : Z) : Z :=
  let a := Z.abs x in
  if a <? 2 ^ 53 then x
  else
    let e := Z.log2 a - 52 in
    let q := a / 2 ^ e in
    let r := a mod 2 ^ e in
    let half := 2 ^ (e - 1) in
    let q' := if r <? half then q
              else if half <? r then q + 1
              else if Z.even q then q else q + 1 in
    Z.sgn x * (q' * 2 ^ e).

(** [x + y] on integer-valued doubles. *)
Definition add (x y : Z) : Z := roundToDouble (x + y).

(** [arr[i]]: [None] is [undefined]. *)
Definition index {A : Type} (arr : list A) (i : Z) : option A :=
  if i <? 0 then None else nth_error arr (Z.to_nat i).

(** [arr.map(f)] where [f] may throw: the elements are visited in order
    and the first exception leaves the loop. *)
Fixpoint map {A B : Type} (f : A -> result B) (arr : list A) : result (list B) :=
  match arr with
  | [] => Ok []
  | x :: arr' =>
      y <- f x ;;
      ys <- map f arr' ;;
      Ok (y :: ys)
  end.

End JS.

(** ** The regular expression [/[A-G](#|b)?/] *)

(** The character class [[A-G]]. *)
Definition isNoteLetter (c : ascii) : bool :=
  let n := nat_of_ascii c in
  (65 <=? n)%nat && (n <=? 71)%nat.

(** The group [(#|b)]. *)
Definition isAccidental (c : ascii) : bool :=
  Ascii.eqb c "#" || Ascii.eqb c "b".

(** What the pattern matches when the match starts at the head of [s]. *)
Definition matchHere (s : string) : option string :=
  match s with
  | EmptyString => None
  | String c rest =>
      if isNoteLetter c then
        match rest with
        | String a _ =>
            if isAccidental a then Some (String c (String a EmptyString))
            else Some (String c EmptyString)
        | EmptyString => Some (String c EmptyString)
        end
      else None
  end.

(** [chord.match(/[A-G](#|b)?/)]: the pattern carries no [^], so the engine
    tries every start position from the left; the value is [rootMatch[0]]. *)
Fixpoint rootMatch (chord : string) : option string :=
  match matchHere chord with
  | Some root => Some root
  | None =>
      match chord with
      | EmptyString => None
      | String _ rest => rootMatch rest
      end
  end.

(** ** The functions of [src/index.ts], over the imported table *)

Section Transposer.

(** The table the source imports from [./objects/chromaticScale]. *)
Variable chromaticScale : list string.

(** The loop of [getNoteIndex], entered at index [i] with the entries
    [entries] still to visit. *)
Fixpoint getNoteIndex_loop (entries : list string) (i : Z) (note : string)
  : result Z :=
  match entries with
  | [] => Throw (UnknownNoteError note)
  | entry :: entries' =>
      if JS.includes entry note then Ok i
      else getNoteIndex_loop entries' (i + 1) note
  end.

Definition getNoteIndex (note : string) : result Z :=
  getNoteIndex_loop chromaticScale 0 note.

Definition chooseEnharmonic (note : string) (direction : Z) : result string :=
  let enharmonics := JS.split "/" note in
  match JS.index enharmonics 0 with
  | None => Throw TypeError
  | Some sharp =>
      if (direction >? 0) && JS.includes sharp "#" then Ok sharp
      else if direction <? 0 then
        match JS.index enharmonics 1 with
        | None => Throw TypeError
        | Some flat => if JS.includes flat "b" then Ok flat else Ok sharp
        end
      else Ok sharp
  end.

(** [(rootIndex + interval + chromaticScale.length) % chromaticScale.length] *)
Definition newIndex (rootIndex interval : Z) : Z :=
  let len := Z.of_nat (List.length chromaticScale) in
  Z.rem (JS.add (JS.add rootIndex interval) len) len.

(** The re-spelling step of [transposeChord]:
    [if (newRoot.includes('/')) newRoot = chooseEnharmonic(newRoot, interval)]. *)
Definition spell (newRoot : string) (interval : Z) : result string :=
  if JS.includes newRoot "/" then chooseEnharmonic newRoot interval
  else Ok newRoot.

Definition transposeChord (chord : string) (interval : Z) : result string :=
  match rootMatch chord with
  | None => Throw (InvalidChordFormatError chord)
  | Some root =>
      let quality := JS.slice chord (String.length root) in
      rootIndex <- getNoteIndex root ;;
      match JS.index chromaticScale (newIndex rootIndex interval) with
      | None => Throw TypeError
      | Some newRoot =>
          newRoot' <- spell newRoot interval ;;
          Ok (newRoot' ++ quality)%string
      end
  end.

Definition transposeChords (chords : string) (interval : Z) : result string :=
  transposed <- JS.map (fun chord => transposeChord chord interval)
                       (JS.split " " chords) ;;
  Ok (JS.join " " transposed).

End Transposer.

(** Modelled from the spec: the table of [./objects/chromaticScale], which is
    not among the sources.  Twelve entries, index 0 = C, one semitone per
    index; a natural spelling is a single letter name and an enharmonic pair
    is the sharp form, the separator [/] and the flat form. *)
Definition chromaticScale : list string :=
  ["C"; "C#/Db"; "D"; "D#/Eb"; "E"; "F"; "F#/Gb"; "G"; "G#/Ab"; "A"; "A#/Bb"; "B"].

(** ** Reference definitions that follow the specification's words *)

(** The specification's matching rule of the note resolver: the spelling
    equals the entry outright, or equals one half of the entry split on the
    separator. *)
Definition spec_entryMatches (entry note : string) : bool :=
  String.eqb note entry || existsb (String.eqb note) (JS.split "/" entry).

Fixpoint spec_resolveIndex_loop (entries : list string) (i : Z) (note : string)
  : result Z :=
  match entries with
  | [] => Throw (UnknownNoteError note)
  | entry :: entries' =>
      if spec_entryMatches entry note then Ok i
      else spec_resolveIndex_loop entries' (i + 1) note
  end.

Definition spec_resolveIndex (table : list string) (note : string) : result Z :=
  spec_resolveIndex_loop table 0 note.

(** The specification's root pattern, anchored at the start of the string. *)
Definition spec_anchoredRoot (chord : string) : option string :=
  matchHere chord.

(** The specification's normalisation, [((index + interval) mod 12 + 12) mod 12]
    with the truncating remainder. *)
Definition spec_normalize (len index interval : Z) : Z :=
  Z.rem (Z.rem (index + interval) len + len) len.

(** ** Observations used by the algebraic properties *)

(** The pitch-class index of the root of a chord symbol: the root the
    transposer extracts, resolved by the note resolver. *)
Definition rootPitchClass (table : list string) (chord : string) : result Z :=
  match rootMatch chord with
  | None => Throw (InvalidChordFormatError chord)
  | Some root => getNoteIndex table root
  end.

(** Transposing by [n] and then by [-n], observed at the root's index. *)
Definition roundTrip (table : list string) (chord : string) (n : Z) : result Z :=
  there <- transposeChord table chord n ;;
  back <- transposeChord table there (- n) ;;
  rootPitchClass table back.


(** A table entry is well formed when it is a natural spelling or one pair:
    splitting it on the separator yields at most two pieces. *)
Definition wfEntry (entry : string) : bool :=
  (List.length (JS.split "/" entry) <=? 2)%nat.

(** [newRoot] is drawn from [entry]: it is the entry itself when the entry is
    a natural spelling, and otherwise one of the two halves of the pair. *)
Definition drawnFrom (entry newRoot : string) : Prop :=
  (JS.includes entry "/" = false /\ newRoot = entry) \/
  (exists sharp flat,
      JS.includes sharp "/" = false /\ JS.includes flat "/" = false /\
      entry = (sharp ++ "/" ++ flat)%string /\
      (newRoot = sharp \/ newRoot = flat)).

(** ** The example run at the end of [src/index.ts] *)

Module Script.

Definition originalChords : string := "C G Am F".

Definition interval : Z := 7.

(** The statements after the function definitions, run when the module is
    loaded: [transposedChords] is computed first, then the two
    [console.log] calls write one line each.  The value is the list of the
    lines written; an exception leaves the script before any line. *)
Definition main (table : list string) : result (list string) :=
  transposedChords <- transposeChords table originalChords interval ;;
  Ok [("Original Chords: " ++ originalChords)%string;
      ("Transposed Chords: " ++ transposedChords)%string].

End Script.

(** ** Lemmas on the string functions *)

Module JSFacts.
Import JS.

Lemma startsWith_empty (s : string) : startsWith s "" = true.
Proof. destruct s; reflexivity. Qed.

Lemma startsWith_app (s t : string) : startsWith (s ++ t) s = true.
Proof.
  induction s as [|a s IH]; simpl.
  - apply startsWith_empty.
  - now rewrite Ascii.eqb_refl, IH.
Qed.

Lemma includes_unfold (s sub : string) :
  includes s sub =
  startsWith s sub ||
  match s with
  | EmptyString => false
  | String _ s' => includes s' sub
  end.
Proof. destruct s; reflexivity. Qed.

Lemma includes_prefix (s t : string) : includes (s ++ t) s = true.
Proof. rewrite includes_unfold, startsWith_app. reflexivity. Qed.

Lemma includes_app_l (p s sub : string) :
  includes s sub = true -> includes (p ++ s) sub = true.
Proof.
  intros H. induction p as [|a p IH]; simpl; auto.
  rewrite IH. apply orb_true_r.
Qed.

Lemma includes_self (s : string) : includes s s = true.
Proof.
  rewrite includes_unfold.
  replace (startsWith s s) with (startsWith (s ++ "") s).
  - now rewrite startsWith_app.
  - f_equal. induction s; simpl; congruence.
Qed.

(** Searching for a one-character string is a search for the character. *)
Lemma includes_char_cons (c d : ascii) (s : string) :
  includes (String d s) (String c "") = Ascii.eqb d c || includes s (String c "").
Proof.
  simpl. now rewrite startsWith_empty, andb_true_r.
Qed.

Lemma includes_char_app (c : ascii) (s t : string) :
  includes (s ++ t) (String c "") =
  includes s (String c "") || includes t (String c "").
Proof.
  induction s as [|a s IH].
  - reflexivity.
  - change (String a s ++ t)%string with (String a (s ++ t)).
    rewrite !includes_char_cons, IH. apply orb_assoc.
Qed.

Lemma split_not_nil (sep : ascii) (s : string) : split sep s <> [].
Proof.
  destruct s as [|c s]; simpl; [discriminate|].
  destruct (Ascii.eqb c sep); [discriminate|].
  destruct (split sep s); discriminate.
Qed.

(** A string without the separator is its own single piece. *)
Lemma split_no_sep (sep : ascii) (s : string) :
  includes s (String sep "") = false -> split sep s = [s].
Proof.
  induction s as [|c s IH]; intros H; [reflexivity|].
  rewrite includes_char_cons in H. apply orb_false_iff in H as [Hc Hs].
  simpl. rewrite Hc, (IH Hs). reflexivity.
Qed.

(** The first separator ends the first piece. *)
Lemma split_app_sep (sep : ascii) (a b : string) :
  includes a (String sep "") = false ->
  split sep (a ++ String sep b) = a :: split sep b.
Proof.
  induction a as [|c a IH]; intros H.
  - simpl. now rewrite Ascii.eqb_refl.
  - rewrite includes_char_cons in H. apply orb_false_iff in H as [Hc Ha].
    simpl. rewrite Hc, (IH Ha). reflexivity.
Qed.

(** No piece contains the separator. *)
Lemma split_pieces_no_sep (sep : ascii) (s : string) :
  Forall (fun piece => includes piece (String sep "") = false) (split sep s).
Proof.
  induction s as [|c s IH]; simpl.
  - repeat constructor.
  - destruct (Ascii.eqb c sep) eqn:Hc.
    + constructor; [reflexivity | exact IH].
    + destruct (split sep s) as [|piece pieces].
      * repeat constructor. rewrite includes_char_cons, Hc. reflexivity.
      * inversion IH as [|? ? Hp Hps]; subst. constructor; [|exact Hps].
        rewrite includes_char_cons, Hc, Hp. reflexivity.
Qed.

(** Joining the pieces with the separator gives the string back. *)
Lemma join_split (sep : ascii) (s : string) :
  join (String sep "") (split sep s) = s.
Proof.
  unfold join. induction s as [|c s IH]; [reflexivity|].
  simpl. destruct (Ascii.eqb c sep) eqn:Hc.
  - apply Ascii.eqb_eq in Hc. subst c.
    pose proof (split_not_nil sep s) as Hne.
    destruct (split sep s) as [|piece pieces]; [congruence|].
    change (String.concat (String sep "") ("" :: piece :: pieces))
      with (String sep (String.concat (String sep "") (piece :: pieces))).
    now rewrite IH.
  - pose proof (split_not_nil sep s) as Hne.
    destruct (split sep s) as [|piece pieces]; [congruence|].
    destruct pieces as [|piece' pieces].
    + simpl in *. now rewrite IH.
    + change (String.concat (String sep "") (String c piece :: piece' :: pieces))
        with (String c (String.concat (String sep "") (piece :: piece' :: pieces))).
      now rewrite IH.
Qed.



Lemma append_assoc (s t u : string) : ((s ++ t) ++ u)%string = (s ++ t ++ u)%string.
Proof. induction s; simpl; congruence. Qed.

End JSFacts.


(** ** The note resolver *)

(** The loop answers with the position of the entry it stops at. *)
Lemma getNoteIndex_loop_found (entries : list string) (i : Z) (note entry : string) :
  In entry entries -> JS.includes entry note = true ->
  exists j, getNoteIndex_loop entries i note = Ok j /\
            i <= j < i + Z.of_nat (List.length entries).
Proof.
  revert i. induction entries as [|e entries IH]; intros i Hin Hinc; [contradiction|].
  cbn [getNoteIndex_loop List.length]. destruct (JS.includes e note) eqn:He.
  - exists i. split; [reflexivity | lia].
  - destruct Hin as [-> | Hin]; [congruence|].
    destruct (IH (i + 1) Hin Hinc) as (j & Hj & Hb).
    exists j. split; [exact Hj | lia].
Qed.

Lemma getNoteIndex_loop_range (entries : list string) (i j : Z) (note : string) :
  getNoteIndex_loop entries i note = Ok j ->
  i <= j < i + Z.of_nat (List.length entries).
Proof.
  revert i. induction entries as [|e entries IH]; intros i H; [discriminate|].
  cbn [getNoteIndex_loop List.length] in *. destruct (JS.includes e note).
  - inversion H; subst. lia.
  - apply IH in H. lia.
Qed.

(** A spelling that the specification's rule matches is also matched by the
    substring test of the source. *)
Lemma spec_entryMatches_includes (entry note : string) :
  spec_entryMatches entry note = true -> JS.includes entry note = true.
Proof.
  unfold spec_entryMatches. intros H. apply orb_true_iff in H as [H | H].
  - apply String.eqb_eq in H. subst. apply JSFacts.includes_self.
  - apply existsb_exists in H as (piece & Hin & Heq).
    apply String.eqb_eq in Heq. subst piece.
    rewrite <- (JSFacts.join_split "/" entry). unfold JS.join.
    induction (JS.split "/" entry) as [|p ps IH]; [contradiction|].
    destruct Hin as [-> | Hin].
    + destruct ps; [apply JSFacts.includes_self | apply JSFacts.includes_prefix].
    + destruct ps as [|p' ps]; [contradiction|].
      change (String.concat "/" (p :: p' :: ps))
        with (p ++ "/" ++ String.concat "/" (p' :: ps))%string.
      rewrite <- JSFacts.append_assoc. apply JSFacts.includes_app_l. now apply IH.
Qed.

(** ** The index normalisation *)

(** Integers below [2 ^ 53] in magnitude are doubles. *)
Lemma roundToDouble_exact (x : Z) :
  Z.abs x < 2 ^ 53 -> JS.roundToDouble x = x.
Proof.
  intros Hx. unfold JS.roundToDouble.
  destruct (Z.ltb_spec (Z.abs x) (2 ^ 53)); [reflexivity | lia].
Qed.

(** Rounding keeps the sign. *)
Lemma roundToDouble_nonneg (x : Z) : 0 <= x -> 0 <= JS.roundToDouble x.
Proof.
  intros Hx. unfold JS.roundToDouble.
  destruct (Z.ltb_spec (Z.abs x) (2 ^ 53)); [exact Hx|].
  assert (Hsgn : Z.sgn x = 1) by (apply Z.sgn_pos; lia). rewrite Hsgn, Z.mul_1_l.
  set (e := Z.log2 (Z.abs x) - 52).
  assert (Hpow : 0 <= 2 ^ e) by (apply Z.pow_nonneg; lia).
  assert (Hq : 0 <= Z.abs x / 2 ^ e).
  { destruct (Z.eq_dec (2 ^ e) 0) as [-> | Hnz].
    - rewrite Z.div_0_r. lia.
    - apply Z.div_pos; lia. }
  apply Z.mul_nonneg_nonneg; [|exact Hpow].
  destruct (_ <? _); [exact Hq|].
  destruct (_ <? _); [lia|].
  destruct (Z.even _); lia.
Qed.

(** The sums of [newIndex] are exact when the interval and two table lengths
    together stay within [2 ^ 53]. *)
Lemma newIndex_exact (table : list string) (rootIndex interval : Z) :
  0 <= rootIndex < Z.of_nat (List.length table) ->
  Z.abs interval + 2 * Z.of_nat (List.length table) <= 2 ^ 53 ->
  newIndex table rootIndex interval =
  Z.rem (rootIndex + interval + Z.of_nat (List.length table))
        (Z.of_nat (List.length table)).
Proof.
  intros Hr Hsafe. unfold newIndex, JS.add.
  rewrite (roundToDouble_exact (rootIndex + interval)) by lia.
  rewrite roundToDouble_exact by lia. reflexivity.
Qed.

(** Beyond that range the sums round: two intervals that are doubles. *)
Lemma newIndex_rounds :
  newIndex chromaticScale 0 (2 ^ 53 - 11) = 8 /\
  newIndex chromaticScale 1 (- (2 ^ 53 + 4)) = 0.
Proof. split; vm_compute; reflexivity. Qed.

Lemma newIndex_in_bounds (table : list string) (rootIndex interval : Z) :
  0 <= rootIndex < Z.of_nat (List.length table) ->
  Z.abs interval + 2 * Z.of_nat (List.length table) <= 2 ^ 53 ->
  0 <= rootIndex + interval + Z.of_nat (List.length table) ->
  0 <= newIndex table rootIndex interval < Z.of_nat (List.length table).
Proof.
  intros Hr Hsafe Hpos. rewrite newIndex_exact by assumption.
  apply Z.rem_bound_pos; lia.
Qed.

(** For an interval that is not negative the index is within the table,
    whatever the magnitude of the interval. *)
Lemma newIndex_up_in_bounds (table : list string) (rootIndex interval : Z) :
  table <> [] ->
  0 <= rootIndex -> 0 <= interval ->
  0 <= newIndex table rootIndex interval < Z.of_nat (List.length table).
Proof.
  intros Hne Hr Hi. unfold newIndex, JS.add.
  apply Z.rem_bound_pos.
  - apply roundToDouble_nonneg.
    pose proof (roundToDouble_nonneg (rootIndex + interval)). lia.
  - destruct table; [congruence | cbn [List.length]; lia].
Qed.

Lemma newIndex_not_positive (table : list string) (rootIndex interval : Z) :
  0 <= rootIndex < Z.of_nat (List.length table) ->
  Z.abs interval + 2 * Z.of_nat (List.length table) <= 2 ^ 53 ->
  rootIndex + interval + Z.of_nat (List.length table) <= 0 ->
  newIndex table rootIndex interval <= 0.
Proof.
  intros Hr Hsafe Hneg. rewrite newIndex_exact by assumption.
  apply Z.rem_nonpos; lia.
Qed.

(** Where the sums are exact and the dividend is not negative the source's
    index is the mathematical residue, and an octave more leaves it
    unchanged. *)
Lemma newIndex_eq_mod (table : list string) (rootIndex interval : Z) :
  0 <= rootIndex < Z.of_nat (List.length table) ->
  Z.abs interval + 2 * Z.of_nat (List.length table) <= 2 ^ 53 ->
  0 <= rootIndex + interval + Z.of_nat (List.length table) ->
  newIndex table rootIndex interval =
  (rootIndex + interval) mod Z.of_nat (List.length table).
Proof.
  intros Hr Hsafe Hpos. rewrite newIndex_exact by assumption.
  rewrite Z.rem_mod_nonneg by lia.
  rewrite <- (Z.mod_add (rootIndex + interval) 1) by lia.
  f_equal. lia.
Qed.

Lemma newIndex_octave (table : list string) (rootIndex n : Z) :
  List.length table = 12%nat ->
  0 <= rootIndex < 12 ->
  Z.abs n + 36 <= 2 ^ 53 ->
  0 <= rootIndex + n + 12 ->
  newIndex table rootIndex (n + 12) = newIndex table rootIndex n.
Proof.
  intros Hlen Hr Hsafe Hpos.
  rewrite !newIndex_eq_mod by (rewrite ?Hlen; lia).
  rewrite Hlen. change (Z.of_nat 12) with 12.
  replace (rootIndex + (n + 12)) with (rootIndex + n + 1 * 12) by lia.
  apply Z.mod_add. lia.
Qed.

(** ** The root pattern *)



(** The pattern fails on [chord] only if no character of [chord] is a note
    letter. *)
Lemma rootMatch_None (chord : string) :
  rootMatch chord = None <->
  forall c, In c (list_ascii_of_string chord) -> isNoteLetter c = false.
Proof.
  induction chord as [|c rest IH].
  - simpl. split; [intros _ ? [] | reflexivity].
  - cbn [rootMatch list_ascii_of_string]. unfold matchHere.
    destruct (isNoteLetter c) eqn:Hc.
    + split.
      * destruct rest as [|a ?]; [|destruct (isAccidental a)]; discriminate.
      * intros H. specialize (H c (or_introl eq_refl)). congruence.
    + rewrite IH. split.
      * intros H d [<- | Hd]; auto.
      * intros H d Hd. apply H. now right.
Qed.

(** The re-spelling step can only fail on a read of [undefined]. *)
Lemma spell_throws (entry : string) (direction : Z) (e : error) :
  spell entry direction = Throw e -> e = TypeError.
Proof.
  unfold spell, chooseEnharmonic.
  destruct (JS.includes entry "/"); [|discriminate].
  destruct (JS.index (JS.split "/" entry) 0) as [sharp|]; [|congruence].
  destruct ((direction >? 0) && JS.includes sharp "#"); [discriminate|].
  destruct (direction <? 0); [|discriminate].
  destruct (JS.index (JS.split "/" entry) 1) as [flat|]; [|congruence].
  destruct (JS.includes flat "b"); discriminate.
Qed.

(** [transposeChord] reports an invalid chord format exactly when the chord
    contains no note letter at any position. *)
Lemma transposeChord_invalid_format (table : list string) (chord : string) (interval : Z) :
  (exists bad, transposeChord table chord interval = Throw (InvalidChordFormatError bad)) <->
  forall c, In c (list_ascii_of_string chord) -> isNoteLetter c = false.
Proof.
  rewrite <- rootMatch_None. unfold transposeChord.
  destruct (rootMatch chord) as [root|].
  - split; [|discriminate]. intros [bad H].
    destruct (getNoteIndex table root) as [i|e] eqn:Hi; cbn [bind] in H.
    + destruct (JS.index table (newIndex table i interval)) as [entry|]; [|discriminate].
      destruct (spell entry interval) as [newRoot|e] eqn:Hs; cbn [bind] in H;
        [discriminate|].
      apply spell_throws in Hs. congruence.
    + injection H as ->. unfold getNoteIndex in Hi.
      exfalso. revert Hi. generalize 0.
      induction table as [|e0 t IH]; intros z Hz; cbn [getNoteIndex_loop] in Hz.
      * discriminate.
      * destruct (JS.includes e0 root); [discriminate|]. now apply IH in Hz.
  - split; [reflexivity|]. intros _. now exists chord.
Qed.

(** ** The claims *)

(** C1 (fails on the code).  The claim: the resolver returns the first entry
    that the spelling equals outright or equals one half of.  The source tests
    [entry.includes(note)], a substring test, so the natural spelling D is
    found inside the earlier pair C#/Db: the source answers index 1 where the
    claimed rule answers index 2. *)
Theorem getNoteIndex_D_resolves_to_pair :
  getNoteIndex chromaticScale "D" = Ok 1 /\
  spec_resolveIndex chromaticScale "D" = Ok 2.
Proof. split; reflexivity. Qed.

(** C2 (fails on the code).  The claim: [transposeChords("C G Am F", 7)] is
    "G D Em C" and [transposeChord("Am", 7)] is "Em".  On the source the roots
    G and A resolve to the pairs F#/Gb and G#/Ab, so the results are
    "G C# D#m C" and "D#m". *)
Theorem transposeChords_fifth_up_example :
  transposeChords chromaticScale "C G Am F" 7 = Ok "G C# D#m C" /\
  transposeChord chromaticScale "Am" 7 = Ok "D#m".
Proof. split; reflexivity. Qed.

(** C3 (fails on the code).  The claim: the normalised index is in [0,12) for
    every interval.  The source adds the table length once before taking the
    truncating remainder: for root C (index 0) and interval -13 the index is
    -1, the table lookup is [undefined] and the call raises a [TypeError],
    where the claimed normalisation gives 11. *)
Theorem newIndex_negative_below_minus_twelve :
  getNoteIndex chromaticScale "C" = Ok 0 /\
  newIndex chromaticScale 0 (-13) = -1 /\
  spec_normalize 12 0 (-13) = 11 /\
  transposeChord chromaticScale "C" (-13) = Throw TypeError.
Proof. repeat split; reflexivity. Qed.

(** C4 (fails on the code).  The claim: the root pattern is anchored at the
    start, and the call fails with InvalidChordFormatError exactly when the
    string has no root prefix.  The pattern of the source has no anchor: "xC"
    has no root prefix, yet the call returns "CC" (root "C", found at
    position 1, and quality ["xC".slice(1)]). *)
Theorem transposeChord_root_not_anchored :
  spec_anchoredRoot "xC" = None /\
  transposeChord chromaticScale "xC" 0 = Ok "CC".
Proof. split; reflexivity. Qed.

(** C5 (fails on the code).  The claim: transposing by [n] and back by [-n]
    gives a chord whose root has the index of the original root.  For "C" and
    2 the source goes to "D" and comes back to "B": D resolves to the pair
    C#/Db (index 1), and B resolves to index 10 where C resolves to 0. *)
Theorem roundTrip_C_up_two_semitones :
  transposeChord chromaticScale "C" 2 = Ok "D" /\
  transposeChord chromaticScale "D" (- 2) = Ok "B" /\
  roundTrip chromaticScale "C" 2 = Ok 10 /\
  rootPitchClass chromaticScale "C" = Ok 0.
Proof. repeat split; reflexivity. Qed.

(** C6 (fails on the code).  The claim: transposing by [n] and by [n + 12]
    give the same pitch class.  For "C" and [n = -13] the source raises a
    [TypeError], and for [n + 12 = -1] it returns "B". *)
Theorem transposeChord_octave_shift_differs :
  transposeChord chromaticScale "C" (-13) = Throw TypeError /\
  transposeChord chromaticScale "C" (-13 + 12) = Ok "B".
Proof. split; reflexivity. Qed.




(** The pieces of an enharmonic pair are its two halves. *)
Lemma split_pair (sharp flat : string) :
  JS.includes sharp "/" = false ->
  JS.includes flat "/" = false ->
  JS.split "/" (sharp ++ "/" ++ flat) = [sharp; flat].
Proof.
  intros Hs Hf.
  change (sharp ++ "/" ++ flat)%string with (sharp ++ String "/" flat)%string.
  now rewrite (JSFacts.split_app_sep "/" sharp flat Hs), (JSFacts.split_no_sep "/" flat Hf).
Qed.

Lemma includes_pair (sharp flat : string) :
  JS.includes (sharp ++ "/" ++ flat) "/" = true.
Proof.
  apply JSFacts.includes_app_l.
  change ("/" ++ flat)%string with (String "/" flat).
  now rewrite JSFacts.includes_char_cons.
Qed.

(** [chooseEnharmonic] on a note that splits into two pieces. *)
Lemma chooseEnharmonic_split (note sharp flat : string) (direction : Z) :
  JS.split "/" note = [sharp; flat] ->
  chooseEnharmonic note direction =
    if (direction >? 0) && JS.includes sharp "#" then Ok sharp
    else if direction <? 0
         then if JS.includes flat "b" then Ok flat else Ok sharp
         else Ok sharp.
Proof. intros Hsplit. unfold chooseEnharmonic. rewrite Hsplit. reflexivity. Qed.

(** C8.  Enharmonic disambiguation: for a pair (sharp form, separator, flat
    form) the re-spelling step returns the sharp form when the direction is
    positive, the flat form when the direction is negative and the flat half
    contains a flat marker, and the sharp form in every other case; an entry
    without separator is returned unchanged. *)
Theorem spell_enharmonic_rule (sharp flat : string) (direction : Z) :
  JS.includes sharp "/" = false ->
  JS.includes flat "/" = false ->
  let pair := (sharp ++ "/" ++ flat)%string in
  (direction > 0 -> spell pair direction = Ok sharp) /\
  (direction < 0 -> JS.includes flat "b" = true -> spell pair direction = Ok flat) /\
  (direction < 0 -> JS.includes flat "b" = false -> spell pair direction = Ok sharp) /\
  (direction = 0 -> spell pair direction = Ok sharp) /\
  (forall natural, JS.includes natural "/" = false -> spell natural direction = Ok natural).
Proof.
  intros Hs Hf pair.
  assert (Hpair : spell pair direction =
                  if (direction >? 0) && JS.includes sharp "#" then Ok sharp
                  else if direction <? 0
                       then if JS.includes flat "b" then Ok flat else Ok sharp
                       else Ok sharp).
  { unfold spell, pair. rewrite includes_pair.
    apply chooseEnharmonic_split, split_pair; assumption. }
  repeat split.
  - intros Hd. rewrite Hpair.
    destruct ((direction >? 0) && JS.includes sharp "#"); [reflexivity|].
    destruct (Z.ltb_spec direction 0); [lia | reflexivity].
  - intros Hd Hb. rewrite Hpair, Hb.
    destruct (Z.gtb_spec direction 0); [lia|]. cbn [andb].
    destruct (Z.ltb_spec direction 0); [reflexivity | lia].
  - intros Hd Hb. rewrite Hpair, Hb.
    destruct ((direction >? 0) && JS.includes sharp "#"); [reflexivity|].
    destruct (direction <? 0); reflexivity.
  - intros ->. rewrite Hpair. reflexivity.
  - intros natural Hn. unfold spell. now rewrite Hn.
Qed.

Lemma spell_enharmonic_rule_witness :
  spell "C#/Db" (-1) = Ok "Db" /\ spell "C#/Db" 1 = Ok "C#" /\
  spell "C#/Db" 0 = Ok "C#" /\ spell "C" (-1) = Ok "C".
Proof.
  pose proof (spell_enharmonic_rule "C#" "Db" (-1) eq_refl eq_refl) as (_ & Hdown & _ & _ & Hnat).
  pose proof (spell_enharmonic_rule "C#" "Db" 1 eq_refl eq_refl) as (Hup & _).
  pose proof (spell_enharmonic_rule "C#" "Db" 0 eq_refl eq_refl) as (_ & _ & _ & Hzero & _).
  split; [|split; [|split]].
  - apply Hdown; reflexivity.
  - apply Hup; reflexivity.
  - apply Hzero; reflexivity.
  - apply Hnat; reflexivity.
Defined.

(** How [arr.map(f)] ends: either every call returns and the result is the
    list of the values in order, or some call throws, every call before it
    returned, and the error of the map is the error of that call. *)
Lemma map_all_or_first_error {A B : Type} (f : A -> result B) (arr : list A) :
  (exists ys, Forall2 (fun x y => f x = Ok y) arr ys /\ JS.map f arr = Ok ys) \/
  (exists before x after e,
      arr = before ++ x :: after /\
      Forall (fun c => exists y, f c = Ok y) before /\
      f x = Throw e /\
      JS.map f arr = Throw e).
Proof.
  induction arr as [|x arr IH].
  - left. exists []. split; [constructor | reflexivity].
  - cbn [JS.map]. destruct (f x) as [y|e] eqn:Hx; cbn [bind].
    + destruct IH as [(ys & Hall & Hmap) | (before & z & after & e & Harr & Hbefore & Hz & Hmap)].
      * left. exists (y :: ys). rewrite Hmap. split; [now constructor | reflexivity].
      * right. exists (x :: before), z, after, e. rewrite Hmap, Harr.
        repeat split; auto. constructor; eauto.
    + right. exists [], x, arr, e. repeat split; auto.
Qed.

(** C9.  Sequence atomicity: [transposeChords] splits on single spaces (the
    elements are never none, contain no space, and joined with single
    spaces give the input back) and transposes the elements in order.
    Either every element is transposed and the result is the outputs joined
    with single spaces, or the call throws the error of the first element
    that fails, and returns nothing. *)
Theorem transposeChords_all_or_nothing (table : list string) (chords : string) (interval : Z) :
  JS.split " " chords <> [] /\
  Forall (fun element => JS.includes element " " = false) (JS.split " " chords) /\
  JS.join " " (JS.split " " chords) = chords /\
  ((exists outs,
       Forall2 (fun chord out => transposeChord table chord interval = Ok out)
               (JS.split " " chords) outs /\
       transposeChords table chords interval = Ok (JS.join " " outs)) \/
   (exists before failing after e,
       JS.split " " chords = before ++ failing :: after /\
       Forall (fun chord => exists out, transposeChord table chord interval = Ok out) before /\
       transposeChord table failing interval = Throw e /\
       transposeChords table chords interval = Throw e)).
Proof.
  split; [apply JSFacts.split_not_nil|].
  split; [apply (JSFacts.split_pieces_no_sep " ")|].
  split; [apply JSFacts.join_split|].
  unfold transposeChords.
  destruct (map_all_or_first_error (fun chord => transposeChord table chord interval)
              (JS.split " " chords))
    as [(outs & Hall & Hmap) | (before & failing & after & e & Hsplit & Hbefore & Hfail & Hmap)].
  - left. exists outs. rewrite Hmap. split; [exact Hall | reflexivity].
  - right. exists before, failing, after, e. rewrite Hmap. repeat split; auto.
Qed.

(** A well-formed entry that contains the separator is one pair. *)
Lemma wfEntry_pair (entry : string) :
  wfEntry entry = true ->
  JS.includes entry "/" = true ->
  exists sharp flat,
    JS.split "/" entry = [sharp; flat] /\
    JS.includes sharp "/" = false /\ JS.includes flat "/" = false /\
    entry = (sharp ++ "/" ++ flat)%string.
Proof.
  unfold wfEntry. intros Hwf Hsep.
  pose proof (JSFacts.join_split "/" entry) as Hjoin.
  pose proof (JSFacts.split_pieces_no_sep "/" entry) as Hpieces.
  pose proof (JSFacts.split_not_nil "/" entry) as Hne.
  destruct (JS.split "/" entry) as [|sharp [|flat [|extra pieces]]].
  - congruence.
  - pose proof (Forall_inv Hpieces) as Hsharp. cbn in Hjoin, Hsharp.
    subst sharp. congruence.
  - pose proof (Forall_inv Hpieces) as Hsharp.
    pose proof (Forall_inv (Forall_inv_tail Hpieces)) as Hflat.
    cbn in Hjoin, Hsharp, Hflat. exists sharp, flat. auto.
  - cbn [List.length] in Hwf. apply Nat.leb_le in Hwf. lia.
Qed.

Lemma spell_drawnFrom (entry newRoot : string) (direction : Z) :
  wfEntry entry = true ->
  spell entry direction = Ok newRoot ->
  drawnFrom entry newRoot.
Proof.
  intros Hwf Hspell. unfold spell in Hspell.
  destruct (JS.includes entry "/") eqn:Hsep.
  - right. destruct (wfEntry_pair entry Hwf Hsep) as (sharp & flat & Hsplit & Hs & Hf & Hentry).
    exists sharp, flat. repeat split; auto.
    rewrite (chooseEnharmonic_split entry sharp flat direction Hsplit) in Hspell.
    destruct ((direction >? 0) && JS.includes sharp "#"); [left; congruence|].
    destruct (direction <? 0); [|left; congruence].
    destruct (JS.includes flat "b"); [right | left]; congruence.
  - left. split; congruence.
Qed.

Lemma drawnFrom_includes (entry newRoot : string) :
  drawnFrom entry newRoot -> JS.includes entry newRoot = true.
Proof.
  intros [[_ ->] | (sharp & flat & _ & _ & -> & [-> | ->])].
  - apply JSFacts.includes_self.
  - apply JSFacts.includes_prefix.
  - apply JSFacts.includes_app_l, JSFacts.includes_app_l, JSFacts.includes_self.
Qed.

Lemma index_In {A : Type} (arr : list A) (i : Z) (x : A) :
  JS.index arr i = Some x -> In x arr /\ 0 <= i < Z.of_nat (List.length arr).
Proof.
  unfold JS.index. destruct (Z.ltb_spec i 0); [discriminate|]. intros Hnth.
  split; [now apply nth_error_In in Hnth|].
  assert (Z.to_nat i < List.length arr)%nat by (apply nth_error_Some; congruence).
  lia.
Qed.

(** C10.  Output invariant: over a table whose entries are natural spellings
    or pairs, a string returned by [transposeChord] is [newRoot ++ quality],
    where [quality] is the input after its root and [newRoot] is drawn from
    an entry of the table (the entry itself if natural, else its sharp or its
    flat half); the note resolver resolves [newRoot] to an index of the
    table. *)
Theorem transposeChord_output_root_from_table
  (table : list string) (chord : string) (interval : Z) (out : string) :
  forallb wfEntry table = true ->
  transposeChord table chord interval = Ok out ->
  exists root newRoot entry i,
    rootMatch chord = Some root /\
    out = (newRoot ++ JS.slice chord (String.length root))%string /\
    In entry table /\ drawnFrom entry newRoot /\
    getNoteIndex table newRoot = Ok i /\ 0 <= i < Z.of_nat (List.length table).
Proof.
  intros Hwf H. unfold transposeChord in H.
  destruct (rootMatch chord) as [root|]; [|discriminate].
  destruct (getNoteIndex table root) as [r|]; cbn [bind] in H; [|discriminate].
  destruct (JS.index table (newIndex table r interval)) as [entry|] eqn:Hentry;
    [|discriminate].
  destruct (spell entry interval) as [newRoot|] eqn:Hspell; cbn [bind] in H;
    [|discriminate].
  injection H as <-.
  apply index_In in Hentry as [Hin _].
  assert (Hdrawn : drawnFrom entry newRoot).
  { apply (spell_drawnFrom entry newRoot interval); [|exact Hspell].
    rewrite forallb_forall in Hwf. now apply Hwf. }
  destruct (getNoteIndex_loop_found table 0 newRoot entry Hin (drawnFrom_includes _ _ Hdrawn))
    as (i & Hi & Hrange).
  exists root, newRoot, entry, i. repeat split; auto; lia.
Qed.

Lemma transposeChord_output_root_from_table_witness :
  exists root newRoot entry i,
    rootMatch "Bbmaj7" = Some root /\
    "Abmaj7"%string = (newRoot ++ JS.slice "Bbmaj7" (String.length root))%string /\
    In entry chromaticScale /\ drawnFrom entry newRoot /\
    getNoteIndex chromaticScale newRoot = Ok i /\
    0 <= i < Z.of_nat (List.length chromaticScale).
Proof.
  apply (transposeChord_output_root_from_table chromaticScale "Bbmaj7" (-2) "Abmaj7").
  - reflexivity.
  - reflexivity.
Defined.

(** ** Further lemmas on the string and array functions *)

Module JSMore.
Import JS.

Lemma startsWith_decompose (s sub : string) :
  startsWith s sub = true -> exists q, s = (sub ++ q)%string.
Proof.
  revert s. induction sub as [|b sub IH]; intros s H.
  - now exists s.
  - destruct s as [|a s]; [discriminate|]. simpl in H.
    apply andb_true_iff in H as [Hab Hrest].
    apply Ascii.eqb_eq in Hab. subst b.
    destruct (IH s Hrest) as [q ->]. now exists q.
Qed.

(** [includes] answers [true] only for a substring. *)
Lemma includes_decompose (s sub : string) :
  includes s sub = true -> exists p q, s = (p ++ sub ++ q)%string.
Proof.
  induction s as [|a s IH]; intros H; rewrite JSFacts.includes_unfold in H;
    apply orb_true_iff in H as [H | H].
  - apply startsWith_decompose in H as [q Hq]. now exists ""%string, q.
  - discriminate.
  - apply startsWith_decompose in H as [q Hq]. now exists ""%string, q.
  - destruct (IH H) as (p & q & ->). now exists (String a p), q.
Qed.

(** A character absent from a string is absent from its substrings. *)
Lemma includes_char_substring (c : ascii) (s sub : string) :
  includes s sub = true ->
  includes s (String c "") = false ->
  includes sub (String c "") = false.
Proof.
  intros Hsub Hc. apply includes_decompose in Hsub as (p & q & ->).
  rewrite !JSFacts.includes_char_app in Hc.
  apply orb_false_iff in Hc as [_ Hc]. now apply orb_false_iff in Hc as [Hc _].
Qed.

Lemma slice_no_char (c : ascii) (s : string) (start : nat) :
  includes s (String c "") = false ->
  includes (slice s start) (String c "") = false.
Proof.
  revert s. induction start as [|start IH]; intros s H; [exact H|].
  destruct s as [|a s]; [reflexivity|]. simpl.
  rewrite JSFacts.includes_char_cons in H. apply orb_false_iff in H as [_ H].
  now apply IH.
Qed.

(** A string that contains the separator splits into at least two pieces. *)
Lemma split_two_pieces (sep : ascii) (s : string) :
  includes s (String sep "") = true ->
  exists first second rest, split sep s = first :: second :: rest.
Proof.
  induction s as [|c s IH]; intros H; [discriminate|].
  rewrite JSFacts.includes_char_cons in H. simpl.
  destruct (Ascii.eqb c sep) eqn:Hc.
  - pose proof (JSFacts.split_not_nil sep s) as Hne.
    destruct (split sep s) as [|p ps]; [congruence|]. now exists ""%string, p, ps.
  - destruct (IH H) as (first & second & rest & ->).
    now exists (String c first), second, rest.
Qed.

(** Splitting distributes over a separator between two strings. *)
Lemma split_app (sep : ascii) (a b : string) :
  split sep (a ++ String sep b) = split sep a ++ split sep b.
Proof.
  induction a as [|c a IH]; simpl.
  - now rewrite Ascii.eqb_refl.
  - destruct (Ascii.eqb c sep); rewrite IH; [reflexivity|].
    pose proof (JSFacts.split_not_nil sep a) as Hne.
    destruct (split sep a) as [|p ps]; [congruence | reflexivity].
Qed.

(** Splitting undoes joining when no piece contains the separator. *)
Lemma split_join (sep : ascii) (pieces : list string) :
  pieces <> [] ->
  Forall (fun piece => includes piece (String sep "") = false) pieces ->
  split sep (join (String sep "") pieces) = pieces.
Proof.
  unfold join. induction pieces as [|p ps IH]; intros Hne Hall; [congruence|].
  destruct ps as [|p' ps].
  - simpl. apply JSFacts.split_no_sep. now apply Forall_inv in Hall.
  - change (String.concat (String sep "") (p :: p' :: ps))
      with (p ++ String sep (String.concat (String sep "") (p' :: ps)))%string.
    rewrite JSFacts.split_app_sep by now apply Forall_inv in Hall.
    rewrite IH; [reflexivity | discriminate | now apply Forall_inv_tail in Hall].
Qed.

Lemma join_app (sep : string) (xs ys : list string) :
  xs <> [] -> ys <> [] ->
  join sep (xs ++ ys) = (join sep xs ++ sep ++ join sep ys)%string.
Proof.
  unfold join. intros Hx Hy. induction xs as [|x xs IH]; [congruence|].
  destruct xs as [|x' xs].
  - destruct ys; [congruence | reflexivity].
  - change (String.concat sep ((x :: x' :: xs) ++ ys))
      with (x ++ sep ++ String.concat sep ((x' :: xs) ++ ys))%string.
    rewrite IH by discriminate.
    change (String.concat sep (x :: x' :: xs))
      with (x ++ sep ++ String.concat sep (x' :: xs))%string.
    now rewrite !JSFacts.append_assoc.
Qed.

Lemma map_app {A B : Type} (f : A -> result B) (xs ys : list A) :
  map f (xs ++ ys) =
  (xs' <- map f xs ;; ys' <- map f ys ;; Ok (xs' ++ ys')).
Proof.
  induction xs as [|x xs IH]; cbn [map app bind].
  - destruct (map f ys); reflexivity.
  - destruct (f x) as [y|e]; cbn [bind]; [|reflexivity].
    rewrite IH. destruct (map f xs) as [xs'|e]; cbn [bind]; [|reflexivity].
    destruct (map f ys); reflexivity.
Qed.

Lemma map_Forall2 {A B : Type} (f : A -> result B) (xs : list A) (ys : list B) :
  map f xs = Ok ys <-> Forall2 (fun x y => f x = Ok y) xs ys.
Proof.
  revert ys. induction xs as [|x xs IH]; intros ys; cbn [map].
  - split.
    + intros [= <-]. constructor.
    + intros H. now inversion H.
  - destruct (f x) as [y|e] eqn:Hx; cbn [bind].
    + destruct (map f xs) as [ys'|e] eqn:Hxs; cbn [bind].
      * split.
        -- intros [= <-]. constructor; [exact Hx | now apply IH].
        -- intros H. inversion H as [|? y0 ? ys0 Hy Hrest]; subst.
           apply IH in Hrest. congruence.
      * split; [discriminate|].
        intros H. inversion H as [|? y0 ? ys0 Hy Hrest]; subst.
        apply IH in Hrest. discriminate.
    + split; [discriminate|].
      intros H. inversion H; subst. congruence.
Qed.

Lemma index_Some {A : Type} (arr : list A) (i : Z) (x : A) :
  index arr i = Some x <-> 0 <= i /\ nth_error arr (Z.to_nat i) = Some x.
Proof.
  unfold index. destruct (Z.ltb_spec i 0); split.
  - discriminate.
  - intros [? _]. lia.
  - auto.
  - now intros [_ ?].
Qed.

End JSMore.

(** ** Further properties of the note resolver *)

(** Where the loop stops: at the first entry that contains the note. *)
Lemma getNoteIndex_loop_first (entries : list string) (k j : Z) (note : string) :
  getNoteIndex_loop entries k note = Ok j ->
  exists n entry,
    j = k + Z.of_nat n /\ nth_error entries n = Some entry /\
    JS.includes entry note = true /\
    forall m earlier, (m < n)%nat -> nth_error entries m = Some earlier ->
                      JS.includes earlier note = false.
Proof.
  revert k. induction entries as [|e entries IH]; intros k H; [discriminate|].
  cbn [getNoteIndex_loop] in H. destruct (JS.includes e note) eqn:He.
  - injection H as <-. exists 0%nat, e. repeat split; auto; [lia|].
    intros m earlier Hm. lia.
  - destruct (IH (k + 1) H) as (n & entry & -> & Hnth & Hinc & Hfirst).
    exists (S n), entry. repeat split; auto; [lia|].
    intros [|m] earlier Hm Hearlier.
    + cbn in Hearlier. congruence.
    + apply (Hfirst m); [lia | exact Hearlier].
Qed.

Lemma getNoteIndex_loop_throws (entries : list string) (k : Z) (note : string) (e : error) :
  getNoteIndex_loop entries k note = Throw e <->
  e = UnknownNoteError note /\
  Forall (fun entry => JS.includes entry note = false) entries.
Proof.
  revert k. induction entries as [|entry entries IH]; intros k; cbn [getNoteIndex_loop].
  - split.
    + intros [= <-]. split; [reflexivity | constructor].
    + now intros [-> _].
  - destruct (JS.includes entry note) eqn:He.
    + split; [discriminate|]. intros [_ Hall]. apply Forall_inv in Hall. congruence.
    + rewrite IH. split.
      * intros [-> Hall]. split; [reflexivity | now constructor].
      * intros [-> Hall]. split; [reflexivity | now apply Forall_inv_tail in Hall].
Qed.

(** The loop stops no later than any entry that contains the note. *)
Lemma getNoteIndex_loop_no_later (entries : list string) (k : Z) (n : nat)
      (note entry : string) :
  nth_error entries n = Some entry -> JS.includes entry note = true ->
  exists j, getNoteIndex_loop entries k note = Ok j /\ k <= j <= k + Z.of_nat n.
Proof.
  revert k n. induction entries as [|e entries IH]; intros k n Hnth Hinc.
  - destruct n; discriminate.
  - cbn [getNoteIndex_loop]. destruct (JS.includes e note) eqn:He.
    + exists k. split; [reflexivity | lia].
    + destruct n as [|n]; [cbn in Hnth; congruence|].
      destruct (IH (k + 1) n Hnth Hinc) as (j & Hj & Hrange).
      exists j. split; [exact Hj | lia].
Qed.

(** A piece of an entry is a substring of the entry. *)
Lemma split_piece_includes (sep : ascii) (s piece : string) :
  In piece (JS.split sep s) -> JS.includes s piece = true.
Proof.
  intros Hin. rewrite <- (JSFacts.join_split sep s) at 1. unfold JS.join.
  induction (JS.split sep s) as [|p ps IH]; [contradiction|].
  destruct Hin as [-> | Hin].
  - destruct ps; [apply JSFacts.includes_self | apply JSFacts.includes_prefix].
  - destruct ps as [|p' ps]; [contradiction|].
    change (String.concat (String sep "") (p :: p' :: ps))
      with (p ++ String sep "" ++ String.concat (String sep "") (p' :: ps))%string.
    rewrite <- JSFacts.append_assoc. apply JSFacts.includes_app_l. now apply IH.
Qed.

(** X1.  [getNoteIndex] returns the position of the first table entry that
    contains the note as a substring: the entry at the returned index
    contains the note and no entry before it does. *)
Theorem getNoteIndex_first_containing_entry (table : list string) (note : string) (i : Z) :
  getNoteIndex table note = Ok i ->
  exists entry,
    JS.index table i = Some entry /\
    JS.includes entry note = true /\
    forall j earlier, 0 <= j < i -> JS.index table j = Some earlier ->
                      JS.includes earlier note = false.
Proof.
  unfold getNoteIndex. intros H.
  apply getNoteIndex_loop_first in H as (n & entry & -> & Hnth & Hinc & Hfirst).
  exists entry. repeat split.
  - apply JSMore.index_Some. rewrite Z.add_0_l, Nat2Z.id. split; [lia | exact Hnth].
  - exact Hinc.
  - intros j earlier Hj Hearlier. apply JSMore.index_Some in Hearlier as [_ Hearlier].
    apply (Hfirst (Z.to_nat j)); [lia | exact Hearlier].
Qed.

Lemma getNoteIndex_first_containing_entry_witness :
  exists entry,
    JS.index chromaticScale 6 = Some entry /\
    JS.includes entry "Gb" = true /\
    forall j earlier, 0 <= j < 6 -> JS.index chromaticScale j = Some earlier ->
                      JS.includes earlier "Gb" = false.
Proof.
  exact (getNoteIndex_first_containing_entry chromaticScale "Gb" 6 eq_refl).
Defined.

(** X2.  [getNoteIndex] throws exactly when no table entry contains the
    note as a substring, and the error it throws then names the note; in
    particular it throws on every note when the table is empty. *)
Theorem getNoteIndex_throws_iff (table : list string) (note : string) (e : error) :
  getNoteIndex table note = Throw e <->
  e = UnknownNoteError note /\
  Forall (fun entry => JS.includes entry note = false) table.
Proof. apply getNoteIndex_loop_throws. Qed.

(** X3.  A spelling listed in the table is never rejected: if the note is
    the entry at index [i], or one of the pieces of that entry between
    separators, [getNoteIndex] returns an index, and that index is at most
    [i] (it is smaller when an earlier entry contains the note). *)
Theorem getNoteIndex_listed_spelling
  (table : list string) (i : Z) (entry note : string) :
  JS.index table i = Some entry ->
  note = entry \/ In note (JS.split "/" entry) ->
  exists j, getNoteIndex table note = Ok j /\ 0 <= j <= i.
Proof.
  intros Hentry Hnote. apply JSMore.index_Some in Hentry as [Hi Hnth].
  assert (Hinc : JS.includes entry note = true).
  { destruct Hnote as [-> | Hin];
      [apply JSFacts.includes_self | now apply (split_piece_includes "/")]. }
  destruct (getNoteIndex_loop_no_later table 0 (Z.to_nat i) note entry Hnth Hinc)
    as (j & Hj & Hrange).
  exists j. split; [exact Hj | lia].
Qed.

Lemma getNoteIndex_listed_spelling_witness :
  exists j, getNoteIndex chromaticScale "D" = Ok j /\ 0 <= j <= 2.
Proof.
  apply (getNoteIndex_listed_spelling chromaticScale 2 "D" "D").
  - reflexivity.
  - left. reflexivity.
Defined.

(** ** Further properties of the enharmonic choice *)

(** With a direction that is not negative, the choice is the first piece. *)
Lemma chooseEnharmonic_not_descending_hd (note : string) (direction : Z) :
  0 <= direction ->
  chooseEnharmonic note direction = Ok (hd ""%string (JS.split "/" note)).
Proof.
  intros Hd. unfold chooseEnharmonic.
  pose proof (JSFacts.split_not_nil "/" note) as Hne.
  destruct (JS.split "/" note) as [|first rest]; [congruence|].
  change (JS.index (first :: rest) 0) with (Some first). cbn [hd].
  destruct ((direction >? 0) && JS.includes first "#"); [reflexivity|].
  destruct (Z.ltb_spec direction 0); [lia | reflexivity].
Qed.

Lemma spell_not_descending_hd (entry : string) (direction : Z) :
  0 <= direction ->
  spell entry direction = Ok (hd ""%string (JS.split "/" entry)).
Proof.
  intros Hd. unfold spell. destruct (JS.includes entry "/") eqn:Hsep.
  - now apply chooseEnharmonic_not_descending_hd.
  - now rewrite (JSFacts.split_no_sep "/" entry Hsep).
Qed.

(** [chooseEnharmonic] looks at the first two pieces only. *)
Lemma chooseEnharmonic_pieces (note first second : string) (rest : list string)
      (direction : Z) :
  JS.split "/" note = first :: second :: rest ->
  chooseEnharmonic note direction =
    if (direction >? 0) && JS.includes first "#" then Ok first
    else if direction <? 0
         then if JS.includes second "b" then Ok second else Ok first
         else Ok first.
Proof. intros Hsplit. unfold chooseEnharmonic. rewrite Hsplit. reflexivity. Qed.

(** The re-spelling step always returns, and what it returns is a piece of
    the entry. *)
Lemma spell_returns_piece (entry : string) (direction : Z) :
  exists newRoot,
    spell entry direction = Ok newRoot /\ In newRoot (JS.split "/" entry).
Proof.
  unfold spell. destruct (JS.includes entry "/") eqn:Hsep.
  - destruct (JSMore.split_two_pieces "/" entry Hsep) as (first & second & rest & Hsplit).
    rewrite (chooseEnharmonic_pieces entry first second rest direction Hsplit).
    rewrite Hsplit.
    destruct ((direction >? 0) && JS.includes first "#");
      [exists first; split; [reflexivity | now left]|].
    destruct (direction <? 0); [|exists first; split; [reflexivity | now left]].
    destruct (JS.includes second "b").
    + exists second. split; [reflexivity | right; now left].
    + exists first. split; [reflexivity | now left].
  - exists entry. rewrite (JSFacts.split_no_sep "/" entry Hsep).
    split; [reflexivity | now left].
Qed.

(** X4.  Called on a note without separator and with a negative direction,
    [chooseEnharmonic] reads the second piece of a one-piece split and
    raises a [TypeError]. *)
Theorem chooseEnharmonic_natural_descending_throws (note : string) (direction : Z) :
  JS.includes note "/" = false ->
  direction < 0 ->
  chooseEnharmonic note direction = Throw TypeError.
Proof.
  intros Hsep Hd. unfold chooseEnharmonic.
  rewrite (JSFacts.split_no_sep "/" note Hsep).
  change (JS.index [note] 0) with (Some note).
  change (JS.index [note] 1) with (@None string).
  destruct (Z.gtb_spec direction 0); [lia|]. cbn [andb].
  destruct (Z.ltb_spec direction 0); [reflexivity | lia].
Qed.

Lemma chooseEnharmonic_natural_descending_throws_witness :
  chooseEnharmonic "C" (-1) = Throw TypeError.
Proof.
  exact (chooseEnharmonic_natural_descending_throws "C" (-1) eq_refl eq_refl).
Defined.

(** X5.  With a direction that is not negative, [chooseEnharmonic] returns
    the text before the first separator, whether or not that text contains
    a sharp marker; a note without separator is returned whole. *)
Theorem chooseEnharmonic_not_descending (first rest : string) (direction : Z) :
  0 <= direction ->
  JS.includes first "/" = false ->
  chooseEnharmonic (first ++ "/" ++ rest) direction = Ok first /\
  chooseEnharmonic first direction = Ok first.
Proof.
  intros Hd Hfirst. rewrite !chooseEnharmonic_not_descending_hd by exact Hd.
  change (first ++ "/" ++ rest)%string with (first ++ String "/" rest)%string.
  rewrite (JSFacts.split_app_sep "/" first rest Hfirst).
  rewrite (JSFacts.split_no_sep "/" first Hfirst). split; reflexivity.
Qed.

Lemma chooseEnharmonic_not_descending_witness :
  chooseEnharmonic ("Db" ++ "/" ++ "C#") 5 = Ok "Db" /\
  chooseEnharmonic "Db" 5 = Ok "Db".
Proof.
  apply (chooseEnharmonic_not_descending "Db" "C#" 5); [lia | reflexivity].
Defined.

(** X6.  The re-spelling step of [transposeChord] never throws, whatever the
    entry and the interval: the guard on the separator keeps
    [chooseEnharmonic] away from one-piece entries.  The spelling it returns
    is a substring of the entry and contains no separator. *)
Theorem spell_returns_separator_free (entry : string) (interval : Z) :
  exists newRoot,
    spell entry interval = Ok newRoot /\
    JS.includes entry newRoot = true /\
    JS.includes newRoot "/" = false.
Proof.
  destruct (spell_returns_piece entry interval) as (newRoot & Hspell & Hin).
  exists newRoot. repeat split; [exact Hspell | |].
  - now apply (split_piece_includes "/").
  - pose proof (JSFacts.split_pieces_no_sep "/" entry) as Hall.
    rewrite Forall_forall in Hall. now apply Hall.
Qed.

(** X7.  The enharmonic choice depends on the direction only through its
    sign: the magnitude of the interval never changes the spelling. *)
Theorem chooseEnharmonic_sign_only (note : string) (direction : Z) :
  chooseEnharmonic note direction = chooseEnharmonic note (Z.sgn direction) /\
  spell note direction = spell note (Z.sgn direction).
Proof.
  assert (H : chooseEnharmonic note direction = chooseEnharmonic note (Z.sgn direction))
    by (destruct direction; reflexivity).
  split; [exact H|]. unfold spell. now rewrite H.
Qed.

(** ** Further properties of [transposeChord] *)

Lemma getNoteIndex_range (table : list string) (note : string) (i : Z) :
  getNoteIndex table note = Ok i -> 0 <= i < Z.of_nat (List.length table).
Proof. intros H. apply getNoteIndex_loop_range in H. lia. Qed.

(** The body of [transposeChord] once the root is matched and resolved. *)
Lemma transposeChord_resolved
  (table : list string) (chord root : string) (rootIndex interval : Z) :
  rootMatch chord = Some root ->
  getNoteIndex table root = Ok rootIndex ->
  transposeChord table chord interval =
    match JS.index table (newIndex table rootIndex interval) with
    | None => Throw TypeError
    | Some newRoot =>
        newRoot' <- spell newRoot interval ;;
        Ok (newRoot' ++ JS.slice chord (String.length root))%string
    end.
Proof. intros Hroot Hindex. unfold transposeChord. now rewrite Hroot, Hindex. Qed.

(** Where the sums are exact, the source's index is negative exactly when
    the sum with one table length is negative and is not a multiple of the
    table length. *)
Lemma newIndex_negative_iff (table : list string) (rootIndex interval : Z) :
  0 <= rootIndex < Z.of_nat (List.length table) ->
  Z.abs interval + 2 * Z.of_nat (List.length table) <= 2 ^ 53 ->
  newIndex table rootIndex interval < 0 <->
  rootIndex + interval + Z.of_nat (List.length table) < 0 /\
  ~ (Z.of_nat (List.length table) | rootIndex + interval).
Proof.
  intros Hr Hsafe. rewrite newIndex_exact by assumption.
  set (len := Z.of_nat (List.length table)).
  assert (Hlen : 0 < len) by (subst len; lia).
  assert (Hdiv : (len | rootIndex + interval + len) <-> (len | rootIndex + interval)).
  { split; intros [k Hk]; [exists (k - 1) | exists (k + 1)]; lia. }
  destruct (Z_lt_le_dec (rootIndex + interval + len) 0) as [Hneg | Hpos].
  - pose proof (Z.rem_nonpos (rootIndex + interval + len) len) as Hle.
    pose proof (Z.rem_divide (rootIndex + interval + len) len) as Hzero.
    split.
    + intros Hlt. split; [exact Hneg|]. intros Hd.
      apply Hdiv, Hzero in Hd; lia.
    + intros [_ Hd].
      assert (Z.rem (rootIndex + interval + len) len <> 0).
      { intros Hz. apply Hd, Hdiv, Hzero; [lia | exact Hz]. }
      lia.
  - pose proof (Z.rem_bound_pos (rootIndex + interval + len) len Hpos Hlen).
    split; [lia | intros [? _]; lia].
Qed.

(** The table lookup of [transposeChord] misses exactly on a negative index. *)
Lemma index_newIndex_None (table : list string) (rootIndex interval : Z) :
  table <> [] ->
  JS.index table (newIndex table rootIndex interval) = None <->
  newIndex table rootIndex interval < 0.
Proof.
  intros Hne.
  assert (Hlen : 0 < Z.of_nat (List.length table))
    by (destruct table; [congruence | cbn [List.length]; lia]).
  pose proof (Z.rem_bound_abs
                (JS.add (JS.add rootIndex interval) (Z.of_nat (List.length table)))
                (Z.of_nat (List.length table))) as Habs.
  fold (newIndex table rootIndex interval) in Habs.
  unfold JS.index. destruct (Z.ltb_spec (newIndex table rootIndex interval) 0).
  - split; auto.
  - split; [|lia]. intros Hnone. apply nth_error_None in Hnone. lia.
Qed.

Lemma table_not_nil (table : list string) (note : string) (i : Z) :
  getNoteIndex table note = Ok i -> table <> [].
Proof. intros H ->. discriminate. Qed.

(** X8.  [transposeChord] throws the invalid-format error exactly when no
    character of the chord, at any position, is a letter A-G; the error then
    carries the whole chord. *)
Theorem transposeChord_invalid_format_iff
  (table : list string) (chord bad : string) (interval : Z) :
  transposeChord table chord interval = Throw (InvalidChordFormatError bad) <->
  bad = chord /\
  forall c, In c (list_ascii_of_string chord) -> isNoteLetter c = false.
Proof.
  rewrite <- rootMatch_None. unfold transposeChord.
  destruct (rootMatch chord) as [root|].
  - split; [|intros [_ ?]; discriminate]. intros H. exfalso.
    destruct (getNoteIndex table root) as [r|e] eqn:Hr; cbn [bind] in H.
    + destruct (JS.index table (newIndex table r interval)) as [entry|];
        [|discriminate].
      destruct (spell_returns_piece entry interval) as (newRoot & Hs & _).
      rewrite Hs in H. discriminate.
    + apply getNoteIndex_loop_throws in Hr as [-> _]. discriminate.
  - split; [intros [= <-] | intros [-> _]]; auto.
Qed.

(** X9.  [transposeChord] throws the unknown-note error exactly when the
    pattern finds a root and no table entry contains that root as a
    substring; the error then carries the root. *)
Theorem transposeChord_unknown_note_iff
  (table : list string) (chord note : string) (interval : Z) :
  transposeChord table chord interval = Throw (UnknownNoteError note) <->
  rootMatch chord = Some note /\
  Forall (fun entry => JS.includes entry note = false) table.
Proof.
  unfold transposeChord. destruct (rootMatch chord) as [root|].
  - destruct (getNoteIndex table root) as [r|e] eqn:Hr; cbn [bind].
    + split.
      * intros H. exfalso.
        destruct (JS.index table (newIndex table r interval)) as [entry|];
          [|discriminate].
        destruct (spell_returns_piece entry interval) as (newRoot & Hs & _).
        rewrite Hs in H. discriminate.
      * intros [[= <-] Hall].
        assert (Hthrow : getNoteIndex table root = Throw (UnknownNoteError root))
          by (apply getNoteIndex_loop_throws; auto).
        congruence.
    + apply getNoteIndex_loop_throws in Hr as [-> Hall]. split.
      * intros [= <-]. auto.
      * intros [[= <-] _]. reflexivity.
  - split; [discriminate | intros [? _]; discriminate].
Qed.

(** X10.  For an interval whose magnitude plus two table lengths is at most
    [2 ^ 53], where the sums of the source are exact, [transposeChord]
    raises a [TypeError] exactly when the root resolves to an index [r] and
    [r + interval + length] is negative and not a multiple of the table
    length: the remainder is then negative and the table lookup yields
    [undefined]. *)
Theorem transposeChord_type_error_iff
  (table : list string) (chord : string) (interval : Z) :
  Z.abs interval + 2 * Z.of_nat (List.length table) <= 2 ^ 53 ->
  (transposeChord table chord interval = Throw TypeError <->
   exists root r,
     rootMatch chord = Some root /\
     getNoteIndex table root = Ok r /\
     r + interval + Z.of_nat (List.length table) < 0 /\
     ~ (Z.of_nat (List.length table) | r + interval)).
Proof.
  intros Hsafe. split.
  - intros H. unfold transposeChord in H.
    destruct (rootMatch chord) as [root|]; [|discriminate].
    destruct (getNoteIndex table root) as [r|e] eqn:Hr; cbn [bind] in H.
    + pose proof (table_not_nil _ _ _ Hr) as Hne.
      pose proof (getNoteIndex_range _ _ _ Hr) as Hrange.
      exists root, r. split; [reflexivity|]. split; [exact Hr|].
      apply newIndex_negative_iff; [exact Hrange | exact Hsafe |].
      apply index_newIndex_None; [exact Hne|].
      destruct (JS.index table (newIndex table r interval)) as [entry|];
        [|reflexivity].
      destruct (spell_returns_piece entry interval) as (newRoot & Hs & _).
      rewrite Hs in H. discriminate.
    + apply getNoteIndex_loop_throws in Hr as [-> _]. discriminate.
  - intros (root & r & Hroot & Hr & Hneg & Hdiv).
    pose proof (table_not_nil _ _ _ Hr) as Hne.
    pose proof (getNoteIndex_range _ _ _ Hr) as Hrange.
    rewrite (transposeChord_resolved table chord root r interval Hroot Hr).
    assert (Hnone : JS.index table (newIndex table r interval) = None).
    { apply index_newIndex_None; [exact Hne|].
      apply newIndex_negative_iff; auto. }
    now rewrite Hnone.
Qed.

Lemma transposeChord_type_error_iff_witness :
  transposeChord chromaticScale "Dm" (-14) = Throw TypeError <->
  exists root r,
    rootMatch "Dm" = Some root /\
    getNoteIndex chromaticScale root = Ok r /\
    r + -14 + Z.of_nat (List.length chromaticScale) < 0 /\
    ~ (Z.of_nat (List.length chromaticScale) | r + -14).
Proof.
  apply (transposeChord_type_error_iff chromaticScale "Dm" (-14)).
  vm_compute. discriminate.
Defined.

(** X11.  For an interval whose magnitude plus two table lengths is at most
    [2 ^ 53]: when the root resolves to index [r] and
    [r + interval + length] is not negative (every such interval from
    [- length] upwards), the call returns; the entry is the one at the
    residue of [r + interval] modulo the table length, and the result is its
    spelling followed by the chord from position [root.length] on. *)
Theorem transposeChord_returns_in_range
  (table : list string) (chord root : string) (r interval : Z) :
  Z.abs interval + 2 * Z.of_nat (List.length table) <= 2 ^ 53 ->
  rootMatch chord = Some root ->
  getNoteIndex table root = Ok r ->
  0 <= r + interval + Z.of_nat (List.length table) ->
  exists entry newRoot,
    JS.index table ((r + interval) mod Z.of_nat (List.length table)) = Some entry /\
    spell entry interval = Ok newRoot /\
    transposeChord table chord interval =
      Ok (newRoot ++ JS.slice chord (String.length root))%string.
Proof.
  intros Hsafe Hroot Hr Hpos.
  pose proof (table_not_nil _ _ _ Hr) as Hne.
  pose proof (getNoteIndex_range _ _ _ Hr) as Hrange.
  rewrite (transposeChord_resolved table chord root r interval Hroot Hr).
  rewrite <- (newIndex_eq_mod table r interval Hrange Hsafe Hpos).
  destruct (JS.index table (newIndex table r interval)) as [entry|] eqn:Hentry.
  - destruct (spell_returns_piece entry interval) as (newRoot & Hs & _).
    exists entry, newRoot. rewrite Hs. auto.
  - apply index_newIndex_None in Hentry; [|exact Hne].
    pose proof (newIndex_in_bounds table r interval Hrange Hsafe Hpos). lia.
Qed.

Lemma transposeChord_returns_in_range_witness :
  exists entry newRoot,
    JS.index chromaticScale ((5 + -12) mod Z.of_nat (List.length chromaticScale))
      = Some entry /\
    spell entry (-12) = Ok newRoot /\
    transposeChord chromaticScale "Fmaj7" (-12) =
      Ok (newRoot ++ JS.slice "Fmaj7" (String.length "F"))%string.
Proof.
  apply (transposeChord_returns_in_range chromaticScale "Fmaj7" "F" 5 (-12)).
  - vm_compute. discriminate.
  - reflexivity.
  - reflexivity.
  - vm_compute. discriminate.
Defined.

(** X12.  Over a table of at most [2 ^ 52] entries, transposing by zero
    replaces the root by the first piece (the text before the first
    separator) of the first table entry that contains it, and keeps the
    chord from position [root.length] on. *)
Theorem transposeChord_zero_respells
  (table : list string) (chord root : string) (r : Z) :
  2 * Z.of_nat (List.length table) <= 2 ^ 53 ->
  rootMatch chord = Some root ->
  getNoteIndex table root = Ok r ->
  exists entry,
    JS.index table r = Some entry /\
    JS.includes entry root = true /\
    (forall j earlier, 0 <= j < r -> JS.index table j = Some earlier ->
                       JS.includes earlier root = false) /\
    transposeChord table chord 0 =
      Ok (hd ""%string (JS.split "/" entry) ++ JS.slice chord (String.length root))%string.
Proof.
  intros Hlen Hroot Hr.
  pose proof (getNoteIndex_range _ _ _ Hr) as Hrange.
  unfold getNoteIndex in Hr.
  destruct (getNoteIndex_loop_first _ _ _ _ Hr) as (n & entry & Hn & Hnth & Hinc & Hfirst).
  assert (Hentry : JS.index table r = Some entry).
  { apply JSMore.index_Some. split; [lia|].
    replace (Z.to_nat r) with n by lia. exact Hnth. }
  exists entry. split; [exact Hentry|]. split; [exact Hinc|]. split.
  - intros j earlier Hj Hearlier. apply JSMore.index_Some in Hearlier as [_ Hearlier].
    apply (Hfirst (Z.to_nat j)); [lia | exact Hearlier].
  - rewrite (transposeChord_resolved table chord root r 0 Hroot Hr).
    rewrite newIndex_eq_mod by (cbn [Z.abs]; lia).
    rewrite Z.add_0_r, Z.mod_small by lia.
    rewrite Hentry, spell_not_descending_hd by lia. reflexivity.
Qed.

Lemma transposeChord_zero_respells_witness :
  exists entry,
    JS.index chromaticScale 3 = Some entry /\
    JS.includes entry "Eb" = true /\
    (forall j earlier, 0 <= j < 3 -> JS.index chromaticScale j = Some earlier ->
                       JS.includes earlier "Eb" = false) /\
    transposeChord chromaticScale "Ebm" 0 =
      Ok (hd ""%string (JS.split "/" entry) ++ JS.slice "Ebm" (String.length "Eb"))%string.
Proof.
  apply (transposeChord_zero_respells chromaticScale "Ebm" "Eb" 3).
  - vm_compute. discriminate.
  - reflexivity.
  - reflexivity.
Defined.

(** X13.  For an interval [n] that is not negative and with [n] plus three
    table lengths at most [2 ^ 53], where the sums of the source are exact,
    one more table length (an octave on a twelve-entry table) changes
    nothing: the call returns the same string or throws the same error. *)
Theorem transposeChord_octave_up
  (table : list string) (chord : string) (n : Z) :
  0 <= n ->
  n + 3 * Z.of_nat (List.length table) <= 2 ^ 53 ->
  transposeChord table chord (n + Z.of_nat (List.length table)) =
  transposeChord table chord n.
Proof.
  intros Hn Hsafe. unfold transposeChord.
  destruct (rootMatch chord) as [root|]; [|reflexivity].
  destruct (getNoteIndex table root) as [r|e] eqn:Hr; cbn [bind]; [|reflexivity].
  pose proof (getNoteIndex_range _ _ _ Hr) as Hrange.
  rewrite !newIndex_eq_mod by lia.
  replace (r + (n + Z.of_nat (List.length table)))
    with (r + n + 1 * Z.of_nat (List.length table)) by lia.
  rewrite Z.mod_add by lia.
  destruct (JS.index table ((r + n) mod Z.of_nat (List.length table))) as [entry|];
    [|reflexivity].
  now rewrite !spell_not_descending_hd by lia.
Qed.

Lemma transposeChord_octave_up_witness :
  transposeChord chromaticScale "F#7" (3 + Z.of_nat (List.length chromaticScale)) =
  transposeChord chromaticScale "F#7" 3.
Proof.
  apply (transposeChord_octave_up chromaticScale "F#7" 3).
  - lia.
  - vm_compute. discriminate.
Defined.

(** ** Further properties of [transposeChords] *)

Lemma map_throws_on_element {A B : Type} (f : A -> result B) (arr : list A)
      (x : A) (e : error) :
  In x arr -> f x = Throw e -> exists e', JS.map f arr = Throw e'.
Proof.
  intros Hin Hx. induction arr as [|y arr IH]; [contradiction|].
  cbn [JS.map]. destruct (f y) as [y'|e0] eqn:Hy; cbn [bind]; [|now exists e0].
  destruct Hin as [-> | Hin]; [congruence|].
  destruct (IH Hin) as [e' ->]. now exists e'.
Qed.

Lemma map_not_nil {A B : Type} (f : A -> result B) (arr : list A) (ys : list B) :
  arr <> [] -> JS.map f arr = Ok ys -> ys <> [].
Proof.
  intros Hne Hmap ->. apply JSMore.map_Forall2 in Hmap. inversion Hmap. congruence.
Qed.

Lemma transposeChord_empty (table : list string) (interval : Z) :
  transposeChord table "" interval = Throw (InvalidChordFormatError "").
Proof. reflexivity. Qed.

Lemma transposeChords_throws_on_element
  (table : list string) (chords element : string) (interval : Z) (e : error) :
  In element (JS.split " " chords) ->
  transposeChord table element interval = Throw e ->
  exists e', transposeChords table chords interval = Throw e'.
Proof.
  intros Hin He. unfold transposeChords.
  destruct (map_throws_on_element
              (fun chord => transposeChord table chord interval) _ _ _ Hin He)
    as [e' ->].
  now exists e'.
Qed.

(** What a returned chord is made of. *)
Lemma transposeChord_output_shape
  (table : list string) (chord out : string) (interval : Z) :
  transposeChord table chord interval = Ok out ->
  exists root entry newRoot,
    rootMatch chord = Some root /\ In entry table /\
    JS.includes entry newRoot = true /\
    out = (newRoot ++ JS.slice chord (String.length root))%string.
Proof.
  unfold transposeChord. intros H.
  destruct (rootMatch chord) as [root|]; [|discriminate].
  destruct (getNoteIndex table root) as [r|]; cbn [bind] in H; [|discriminate].
  destruct (JS.index table (newIndex table r interval)) as [entry|] eqn:Hentry;
    [|discriminate].
  destruct (spell_returns_piece entry interval) as (newRoot & Hs & Hin).
  rewrite Hs in H. cbn [bind] in H. injection H as <-.
  exists root, entry, newRoot. repeat split.
  - now apply index_In in Hentry.
  - now apply (split_piece_includes "/").
Qed.

(** X14.  An empty input, and an input that begins with a space, make
    [transposeChords] throw the invalid-format error for the empty chord:
    the first element of the split is the empty string. *)
Theorem transposeChords_empty_or_leading_space
  (table : list string) (rest : string) (interval : Z) :
  transposeChords table "" interval = Throw (InvalidChordFormatError "") /\
  transposeChords table (String " " rest) interval = Throw (InvalidChordFormatError "").
Proof. split; reflexivity. Qed.

(** X15.  Two consecutive spaces anywhere in the input, or a space at its
    end, make the whole call throw: the split then has an empty element, on
    which the root pattern fails. *)
Theorem transposeChords_irregular_spacing_throws
  (table : list string) (a b : string) (interval : Z) :
  (exists e, transposeChords table (a ++ "  " ++ b) interval = Throw e) /\
  (exists e, transposeChords table (a ++ " ") interval = Throw e).
Proof.
  split.
  - apply (transposeChords_throws_on_element table _ ""%string interval
             (InvalidChordFormatError "")); [|reflexivity].
    change (a ++ "  " ++ b)%string with (a ++ String " " (String " " b))%string.
    rewrite JSMore.split_app. apply in_or_app. right. simpl. now left.
  - apply (transposeChords_throws_on_element table _ ""%string interval
             (InvalidChordFormatError "")); [|reflexivity].
    change (a ++ " ")%string with (a ++ String " " "")%string.
    rewrite JSMore.split_app. apply in_or_app. right. simpl. now left.
Qed.

(** X16.  [transposeChords] distributes over a space: the result on
    [a ++ " " ++ b] is the result on [a], a space, and the result on [b];
    if the call on [a] throws, that error is thrown, and otherwise an error
    of the call on [b]. *)
Theorem transposeChords_app (table : list string) (a b : string) (interval : Z) :
  transposeChords table (a ++ " " ++ b) interval =
  (left <- transposeChords table a interval ;;
   right <- transposeChords table b interval ;;
   Ok (left ++ " " ++ right)%string).
Proof.
  unfold transposeChords.
  change (a ++ " " ++ b)%string with (a ++ String " " b)%string.
  rewrite JSMore.split_app, JSMore.map_app.
  destruct (JS.map (fun chord => transposeChord table chord interval) (JS.split " " a))
    as [xs|e] eqn:Hxs; cbn [bind]; [|reflexivity].
  destruct (JS.map (fun chord => transposeChord table chord interval) (JS.split " " b))
    as [ys|e] eqn:Hys; cbn [bind]; [|reflexivity].
  f_equal. apply JSMore.join_app.
  - exact (map_not_nil _ _ _ (JSFacts.split_not_nil " " a) Hxs).
  - exact (map_not_nil _ _ _ (JSFacts.split_not_nil " " b) Hys).
Qed.

(** X17.  Over a table whose entries contain no space, a returned sequence
    splits back into the transposed chords: the output has as many
    space-separated elements as the input, and each is the transposition of
    the input element at the same position. *)
Theorem transposeChords_output_elements
  (table : list string) (chords out : string) (interval : Z) :
  Forall (fun entry => JS.includes entry " " = false) table ->
  transposeChords table chords interval = Ok out ->
  Forall2 (fun chord out' => transposeChord table chord interval = Ok out')
          (JS.split " " chords) (JS.split " " out).
Proof.
  intros Htable H. unfold transposeChords in H.
  destruct (JS.map (fun chord => transposeChord table chord interval)
                   (JS.split " " chords)) as [outs|] eqn:Hmap;
    cbn [bind] in H; [|discriminate].
  injection H as <-.
  pose proof (map_not_nil _ _ _ (JSFacts.split_not_nil " " chords) Hmap) as Hne.
  apply JSMore.map_Forall2 in Hmap.
  rewrite JSMore.split_join; [exact Hmap | exact Hne |].
  pose proof (JSFacts.split_pieces_no_sep " " chords) as Hpieces.
  clear Hne. induction Hmap as [|chord out' chords' outs' Hout _ IH]; [constructor|].
  constructor; [|apply IH; now apply Forall_inv_tail in Hpieces].
  apply Forall_inv in Hpieces.
  apply transposeChord_output_shape in Hout
    as (root & entry & newRoot & _ & Hin & Hinc & ->).
  rewrite JSFacts.includes_char_app. apply orb_false_iff. split.
  - apply (JSMore.includes_char_substring " " entry); [exact Hinc|].
    rewrite Forall_forall in Htable. now apply Htable.
  - now apply JSMore.slice_no_char.
Qed.

Lemma transposeChords_output_elements_witness :
  Forall2 (fun chord out' => transposeChord chromaticScale chord 5 = Ok out')
          (JS.split " " "C F#m7 Bb") (JS.split " " "F Bm7 D#").
Proof.
  apply (transposeChords_output_elements chromaticScale "C F#m7 Bb" "F Bm7 D#" 5).
  - repeat constructor.
  - reflexivity.
Defined.

(** X18.  On an input without a space the batch function is the single
    function: same string, same error. *)
Theorem transposeChords_single_chord
  (table : list string) (chord : string) (interval : Z) :
  JS.includes chord " " = false ->
  transposeChords table chord interval = transposeChord table chord interval.
Proof.
  intros Hspace. unfold transposeChords.
  rewrite (JSFacts.split_no_sep " " chord Hspace). cbn [JS.map].
  destruct (transposeChord table chord interval); reflexivity.
Qed.

Lemma transposeChords_single_chord_witness :
  transposeChords chromaticScale "Bbm7" (-3) = transposeChord chromaticScale "Bbm7" (-3).
Proof.
  exact (transposeChords_single_chord chromaticScale "Bbm7" (-3) eq_refl).
Defined.

(** ** Further properties of the root pattern *)

Lemma matchHere_shape (s root : string) :
  matchHere s = Some root ->
  exists letter accidental after,
    s = String letter (accidental ++ after) /\
    root = String letter accidental /\
    isNoteLetter letter = true /\
    ((accidental = ""%string /\
      forall a rest, after = String a rest -> isAccidental a = false) \/
     (exists a, accidental = String a "" /\ isAccidental a = true)).
Proof.
  destruct s as [|c rest]; simpl; [discriminate|].
  destruct (isNoteLetter c) eqn:Hc; [|discriminate].
  destruct rest as [|a rest].
  - intros [= <-]. exists c, ""%string, ""%string. repeat split; auto.
    left. split; [reflexivity | discriminate].
  - destruct (isAccidental a) eqn:Ha; intros [= <-].
    + exists c, (String a ""), rest. repeat split; auto. right. now exists a.
    + exists c, ""%string, (String a rest). repeat split; auto.
      left. split; [reflexivity|]. intros a' rest' [= <- <-]. exact Ha.
Qed.

Lemma matchHere_None_letter (c : ascii) (rest : string) :
  matchHere (String c rest) = None -> isNoteLetter c = false.
Proof.
  simpl. destruct (isNoteLetter c); [|reflexivity].
  destruct rest as [|a ?]; [|destruct (isAccidental a)]; discriminate.
Qed.

(** X19.  The root that [transposeChord] extracts is the leftmost match of
    the pattern, wherever it lies: no character before it is a letter A-G,
    it is one such letter followed by the accidental [#] or [b] when one
    comes next, and by nothing otherwise. *)
Theorem rootMatch_leftmost (chord root : string) :
  rootMatch chord = Some root ->
  exists before letter accidental after,
    chord = (before ++ String letter (accidental ++ after))%string /\
    root = String letter accidental /\
    (forall c, In c (list_ascii_of_string before) -> isNoteLetter c = false) /\
    isNoteLetter letter = true /\
    ((accidental = ""%string /\
      forall a rest, after = String a rest -> isAccidental a = false) \/
     (exists a, accidental = String a "" /\ isAccidental a = true)).
Proof.
  induction chord as [|c rest IH]; [discriminate|].
  cbn [rootMatch]. destruct (matchHere (String c rest)) as [r|] eqn:Hm.
  - intros [= <-].
    destruct (matchHere_shape _ _ Hm) as (letter & accidental & after & Hs & Hr & Hl & Hacc).
    exists ""%string, letter, accidental, after. repeat split; auto.
    intros ? [].
  - intros Hrest.
    destruct (IH Hrest) as (before & letter & accidental & after & -> & Hr & Hb & Hl & Hacc).
    exists (String c before), letter, accidental, after. repeat split; auto.
    intros d [<- | Hd]; [now apply matchHere_None_letter in Hm | now apply Hb].
Qed.

Lemma rootMatch_leftmost_witness :
  exists before letter accidental after,
    "N.C#m"%string = (before ++ String letter (accidental ++ after))%string /\
    "C#"%string = String letter accidental /\
    (forall c, In c (list_ascii_of_string before) -> isNoteLetter c = false) /\
    isNoteLetter letter = true /\
    ((accidental = ""%string /\
      forall a rest, after = String a rest -> isAccidental a = false) \/
     (exists a, accidental = String a "" /\ isAccidental a = true)).
Proof.
  exact (rootMatch_leftmost "N.C#m" "C#" eq_refl).
Defined.

(** ** The example run *)

(** A chord whose root resolves is transposed by every interval that is not
    negative. *)
Lemma transposeChord_up_returns
  (table : list string) (chord root : string) (r interval : Z) :
  rootMatch chord = Some root ->
  getNoteIndex table root = Ok r ->
  0 <= interval ->
  exists out, transposeChord table chord interval = Ok out.
Proof.
  intros Hroot Hr Hpos.
  pose proof (table_not_nil _ _ _ Hr) as Hne.
  pose proof (getNoteIndex_range _ _ _ Hr) as Hrange.
  rewrite (transposeChord_resolved table chord root r interval Hroot Hr).
  destruct (JS.index table (newIndex table r interval)) as [entry|] eqn:Hentry.
  - destruct (spell_returns_piece entry interval) as (newRoot & -> & _).
    cbn [bind]. eauto.
  - apply index_newIndex_None in Hentry; [|exact Hne].
    pose proof (newIndex_up_in_bounds table r interval Hne). lia.
Qed.

Lemma transposeChord_root_unknown
  (table : list string) (chord root : string) (interval : Z) (e : error) :
  rootMatch chord = Some root ->
  getNoteIndex table root = Throw e ->
  transposeChord table chord interval = Throw (UnknownNoteError root) /\
  Forall (fun entry => JS.includes entry root = false) table.
Proof.
  intros Hroot He. unfold transposeChord. rewrite Hroot, He. cbn [bind].
  apply getNoteIndex_loop_throws in He as [-> Hall]. auto.
Qed.

(** X20.  Loading the module either writes exactly two lines, the original
    chords and the transposed chords, or throws before writing anything;
    it throws only the unknown-note error, and for the first of the roots
    C, G, A, F that no table entry contains: the roots before it in that
    order are resolved. *)
Theorem main_logs_two_lines_or_unknown_note (table : list string) :
  (exists transposed,
      transposeChords table "C G Am F" 7 = Ok transposed /\
      Script.main table =
        Ok ["Original Chords: C G Am F"%string;
            ("Transposed Chords: " ++ transposed)%string]) \/
  (exists before note after,
      ["C"; "G"; "A"; "F"]%string = before ++ note :: after /\
      Forall (fun root => exists i, getNoteIndex table root = Ok i) before /\
      Forall (fun entry => JS.includes entry note = false) table /\
      Script.main table = Throw (UnknownNoteError note)).
Proof.
  unfold Script.main, Script.originalChords, Script.interval, transposeChords.
  change (JS.split " " "C G Am F") with ["C"; "G"; "Am"; "F"]%string.
  cbn [JS.map].
  destruct (getNoteIndex table "C") as [r1|e1] eqn:H1.
  2:{ destruct (transposeChord_root_unknown table "C" "C" 7 e1 eq_refl H1) as [-> Hall].
      right. exists [], "C"%string, ["G"; "A"; "F"]%string. cbn [bind]. auto. }
  destruct (transposeChord_up_returns table "C" "C" r1 7 eq_refl H1 ltac:(lia)) as [o1 ->].
  cbn [bind].
  destruct (getNoteIndex table "G") as [r2|e2] eqn:H2.
  2:{ destruct (transposeChord_root_unknown table "G" "G" 7 e2 eq_refl H2) as [-> Hall].
      right. exists ["C"]%string, "G"%string, ["A"; "F"]%string. cbn [bind].
      repeat split; auto. repeat constructor; eauto. }
  destruct (transposeChord_up_returns table "G" "G" r2 7 eq_refl H2 ltac:(lia)) as [o2 ->].
  cbn [bind].
  destruct (getNoteIndex table "A") as [r3|e3] eqn:H3.
  2:{ destruct (transposeChord_root_unknown table "Am" "A" 7 e3 eq_refl H3) as [-> Hall].
      right. exists ["C"; "G"]%string, "A"%string, ["F"]%string. cbn [bind].
      repeat split; auto. repeat constructor; eauto. }
  destruct (transposeChord_up_returns table "Am" "A" r3 7 eq_refl H3 ltac:(lia)) as [o3 ->].
  cbn [bind].
  destruct (getNoteIndex table "F") as [r4|e4] eqn:H4.
  2:{ destruct (transposeChord_root_unknown table "F" "F" 7 e4 eq_refl H4) as [-> Hall].
      right. exists ["C"; "G"; "A"]%string, "F"%string, []. cbn [bind].
      repeat split; auto. repeat constructor; eauto. }
  destruct (transposeChord_up_returns table "F" "F" r4 7 eq_refl H4 ltac:(lia)) as [o4 ->].
  cbn [bind]. left. eexists. split; reflexivity.
Qed.

(** X21.  The empty spelling is never rejected: over a table that is not
    empty [getNoteIndex] resolves it to index 0, since every entry contains
    the empty string. *)
Theorem getNoteIndex_empty_note (table : list string) :
  table <> [] -> getNoteIndex table "" = Ok 0.
Proof.
  intros Hne. destruct table as [|entry table]; [congruence|].
  unfold getNoteIndex. cbn [getNoteIndex_loop].
  now rewrite JSFacts.includes_unfold, JSFacts.startsWith_empty.
Qed.

Lemma getNoteIndex_empty_note_witness : getNoteIndex chromaticScale "" = Ok 0.
Proof. apply (getNoteIndex_empty_note chromaticScale). discriminate. Defined.
